(** * opentrade: market-data records, source identifiers and the risk throttle

    A shallow embedding of [src/opentrade/market_data.h] and
    [src/opentrade/risk.h], followed by the properties proved about it.

    Conventions of the embedding.
    - C++ integers are [Z]; every operation that can leave the range of its
      type is followed by the wrap-around of that type ([u32], [i32]).
    - [char] is the signed 8-bit type of the x86-64 targets the project
      builds for; an ASCII character is a code in [1, 127].
    - [double] is an IEEE 754 binary64 value ([spec_float]); the C++ operators
      [==] and [!=] on it are [SFeqb] and its negation.
    - A statement that can throw, abort or run into undefined behaviour
      lives in the [outcome] monad; a member function that mutates its
      object lives in the state monad [M].
    - The process-wide [mutex_] of [MarketData] is not modelled: the
      embedding is sequential. *)

From Stdlib Require Import ZArith List Bool Lia String.
From Stdlib Require Import Floats.SpecFloat.
From stdpp Require Import base decidable option list gmap.

(* ===================================================================== *)
(** * Definitions                                                         *)
(* ===================================================================== *)

(** ** The C++ fragment the headers rely on *)

Module Cxx.

Local Open Scope Z_scope.

(** [uint32_t] arithmetic is modulo 2^32. *)
Definition u32 (z : Z) : Z := z mod 2 ^ 32.

(** [int] is 32 bits wide, two's complement. *)
Definition i32 (z : Z) : Z := (z + 2 ^ 31) mod 2 ^ 32 - 2 ^ 31.

(** [char], as a signed 8-bit integer. *)
Definition char := Z.

(** Conversion of an integer to [char]. *)
Definition to_char (z : Z) : char := (z + 2 ^ 7) mod 2 ^ 8 - 2 ^ 7.

Definition char_is_ascii (c : char) : Prop := 1 <= c <= 127.

(** [double]. *)
Definition double := spec_float.

Definition double_zero : double := S754_zero false.

(** [a != b] on doubles: true on a NaN operand, false on [+0] against
    [-0]. *)
Definition double_ne (a b : double) : bool := negb (SFeqb a b).

(** Two doubles that do not differ as numbers: the same value, or two
    zeros of either sign. *)
Definition same_value (x y : double) : Prop :=
  x = y \/ exists s s' : bool, x = S754_zero s /\ y = S754_zero s'.

(** [a > b] on doubles. *)
Definition double_gt (a b : double) : bool := SFltb b a.

(** Conversion of an [int] to [double] (exact below 2^53). *)
Definition double_of_int (z : Z) : double :=
  binary_normalize 53 1024 z 0 false.

(** [a != b] on integers. *)
Definition int_ne (a b : Z) : bool := negb (a =? b).

(** The exceptions the headers can meet. *)
Inductive exn := bad_any_cast | out_of_range.

#[global] Instance exn_eq_dec : EqDecision exn.
Proof. solve_decision. Defined.

(** What running a statement can end in. *)
Inductive outcome (A : Type) : Type :=
| Normal (a : A)          (* ran to completion *)
| Throws (e : exn)        (* an exception leaves the statement *)
| Aborted                 (* a failed [assert] *)
| Undefined.              (* undefined behaviour *)
Arguments Normal {A} a.
Arguments Throws {A} e.
Arguments Aborted {A}.
Arguments Undefined {A}.

Definition obind {A B} (m : outcome A) (k : A -> outcome B) : outcome B :=
  match m with
  | Normal a => k a
  | Throws e => Throws e
  | Aborted => Aborted
  | Undefined => Undefined
  end.

(** [try { body } catch (const E&) { handler }]: only [E] is caught. *)
Definition try_catch {A} (body : outcome A) (E : exn) (handler : outcome A)
  : outcome A :=
  match body with
  | Throws e => if decide (e = E) then handler else Throws e
  | other => other
  end.

(** [assert(b)], in a build that keeps assertions. *)
Definition assert (b : bool) : outcome unit :=
  if b then Normal tt else Aborted.

(** State monad for member functions that mutate [*this]. *)
Definition M (S A : Type) : Type := S -> A * S.

Definition ret {S A} (a : A) : M S A := fun s => (a, s).
Definition bind {S A B} (m : M S A) (k : A -> M S B) : M S B :=
  fun s => let '(a, s') := m s in k a s'.
Definition get {S} : M S S := fun s => (s, s).
Definition put {S} (s : S) : M S unit := fun _ => (tt, s).
Definition exec {S A} (m : M S A) (s : S) : S := snd (m s).
Definition eval {S A} (m : M S A) (s : S) : A := fst (m s).

End Cxx.

(** Both monads use stdpp's notation [x ← m; k]. *)
#[global] Instance outcome_ret : MRet Cxx.outcome := @Cxx.Normal.
#[global] Instance outcome_bind : MBind Cxx.outcome :=
  fun A B k m => Cxx.obind m k.
#[global] Instance M_ret {S} : MRet (Cxx.M S) := @Cxx.ret S.
#[global] Instance M_bind {S} : MBind (Cxx.M S) :=
  fun A B k m => Cxx.bind m k.

(** ** [struct DataSrc]: the source identifier codec *)

Module DataSrc.

Import Cxx.
Local Open Scope Z_scope.

(** [typedef uint32_t IdType]. *)
Definition IdType := Z.

(** A [const char*] that is not null points at a run of characters in
    memory; reading past the end of the list reads the terminator. *)
Definition cstr := list char.

(** [std::string::c_str()]: the characters followed by the terminator. *)
Definition c_str (s : list char) : cstr := s ++ [0].

(** [strlen]. *)
Fixpoint strlen (src : cstr) : Z :=
  match src with
  | [] => 0
  | c :: rest => if c =? 0 then 0 else 1 + strlen rest
  end.

(** The C string a [const char*] denotes: the characters before the
    first terminator. *)
Fixpoint read_cstr (src : cstr) : list char :=
  match src with
  | [] => []
  | c :: rest => if c =? 0 then [] else c :: read_cstr rest
  end.

(** [GetId] on a pointer that is not null:
    [if (!*src) return 0;
     return strlen(src) == 1 ? *src : (GetId(src + 1) << 8) + *src;] *)
Fixpoint GetId_at (src : cstr) : IdType :=
  match src with
  | [] => 0
  | c :: rest =>
      if c =? 0 then 0
      else if strlen src =? 1 then u32 c
      else u32 (u32 (Z.shiftl (GetId_at rest) 8) + u32 c)
  end.

(** [static constexpr IdType GetId(const char* src)]; [None] is the null
    pointer. *)
Definition GetId (src : option cstr) : IdType :=
  match src with
  | None => 0
  | Some s => GetId_at s
  end.

(** [explicit DataSrc(const std::string& src) : value(GetId(src.c_str()))]. *)
Definition of_string (src : list char) : IdType := GetId (Some (c_str src)).

(** The loop of [GetStr]:
    [for (i = 0u; i < 4 && id; ++i) { str[i] = id & 0xFF; id >>= 8; }].
    [left] is [4 - i], so that [left = 0] is the failure of [i < 4]. *)
Fixpoint GetStr_loop (left : nat) (i : nat) (id : IdType) (str : list char)
  : nat * list char :=
  match left with
  | O => (i, str)
  | S left' =>
      if id =? 0 then (i, str)
      else GetStr_loop left' (S i) (Z.shiftr id 8)
                       (<[i := to_char (Z.land id 255)]> str)
  end.

(** [static const char* GetStr(IdType id)], as a transformer of the
    [thread_local char str[5]] it writes and returns. *)
Definition GetStr (id : IdType) (str : list char) : list char :=
  let '(i, str') := GetStr_loop 4 0 id str in
  <[i := 0]> str'.

(** [const char* str() const]: the string a caller reads from the buffer
    [GetStr] returns. *)
Definition str (value : IdType) (buf : list char) : list char :=
  read_cstr (GetStr value buf).

(** The little-endian packing of characters, without wrap-around: the
    number [GetId] is measured against (not a function of the header). *)
Fixpoint pack (s : list char) : Z :=
  match s with
  | [] => 0
  | c :: rest => c + 256 * pack rest
  end.

(** The characters the loop of [GetStr] stores, in the order it stores
    them: the low bytes of the identifier up to the first run-out (not a
    function of the header; the loop is measured against it). *)
Fixpoint GetStr_chars (left : nat) (id : IdType) : list char :=
  match left with
  | O => []
  | S left' =>
      if id =? 0 then []
      else to_char (Z.land id 255) :: GetStr_chars left' (Z.shiftr id 8)
  end.

End DataSrc.

(** ** [struct MarketData]: the record of one (security, source) pair *)

Module MarketData.

Import Cxx.
Local Open Scope Z_scope.

(** The default build ([BACKTEST] not defined):
    [typedef int Qty; typedef int64_t Volume]. *)
Definition Qty := Z.
Definition Volume := Z.

Record Trade := mkTrade {
  qty : Qty;
  open : double;
  high : double;
  low : double;
  close : double;
  vwap : double;
  volume : Volume
}.

Definition Trade_default : Trade :=
  mkTrade 0 double_zero double_zero double_zero double_zero double_zero 0.

(** [bool Trade::operator!=(const Trade& b) const]. *)
Definition Trade_ne (a b : Trade) : bool :=
  int_ne (volume a) (volume b) || double_ne (close a) (close b)
  || double_ne (high a) (high b) || double_ne (low a) (low b).

Record Quote := mkQuote {
  ask_price : double;
  bid_price : double;
  ask_size : Qty;
  bid_size : Qty
}.

Definition Quote_default : Quote := mkQuote double_zero double_zero 0 0.

(** [bool Quote::operator!=(const Quote& b) const]. *)
Definition Quote_ne (a b : Quote) : bool :=
  double_ne (ask_price a) (ask_price b) || int_ne (ask_size a) (ask_size b)
  || double_ne (bid_price a) (bid_price b) || int_ne (bid_size a) (bid_size b).

(** [bool Quote::operator==(const Quote& b) const]: the negation of
    [operator!=] on the same operands. *)
Definition Quote_eq (a b : Quote) : bool := negb (Quote_ne a b).

Definition kDepthSize : nat := 5.

(** The C++ types a derived value can have, as far as [std::any] tells
    them apart. *)
Inductive ctype :=
| Tint
| Tdouble
| Tstring
| Tclass (name : string)
| Tptr (pointee : ctype)          (* T* *)
| Tconst_ptr (pointee : ctype).   (* const T* *)

#[global] Instance ctype_eq_dec : EqDecision ctype.
Proof. solve_decision. Defined.

(** An object held by a [std::any]: its type and its representation (for
    a pointer, the address it holds). *)
Record object := mkObject { type_of : ctype; repr : Z }.

(** [std::any]: empty, or holding an object. *)
Abbreviation any := (option object).

(** A pointer value; [nullptr] is what [return {}] yields. *)
Definition pointer := Z.
Definition nullptr : pointer := 0.

(** [std::any_cast<U>(operand)], the overload on a reference: it throws
    unless the operand holds an object of exactly type [U]. *)
Definition any_cast (U : ctype) (operand : any) : outcome Z :=
  match operand with
  | Some o => if decide (type_of o = U) then Normal (repr o)
              else Throws bad_any_cast
  | None => Throws bad_any_cast
  end.

(** [typedef std::vector<std::any> AnyVec]. *)
Abbreviation AnyVec := (list (option object)).

(** [std::vector::at]: bounds-checked. *)
Definition vector_at (v : AnyVec) (id : nat) : outcome any :=
  match v !! id with
  | Some a => Normal a
  | None => Throws out_of_range
  end.

(** [v[id] = value] through [operator[]]: not bounds-checked; undefined
    behaviour outside [0, size). *)
Definition vector_store (v : AnyVec) (id : nat) (value : any)
  : outcome AnyVec :=
  if decide (id < length v)%nat then Normal (<[id := value]> v)
  else Undefined.

(** [resize(n)]: truncates, or pads with empty [std::any]s. *)
Definition vector_resize (n : nat) (v : AnyVec) : AnyVec := resize n None v.

Record t := mkMarketData {
  tm : Z;
  trade : Trade;
  depth : list Quote;           (* Quote[kDepthSize] *)
  derived : option AnyVec       (* AnyVec*; [None] is nullptr *)
}.

(** A default-initialised record. *)
Definition fresh : t :=
  mkMarketData 0 Trade_default (replicate kDepthSize Quote_default) None.

(** [const Quote& quote() const { return depth[0]; }] *)
Definition quote (md : t) : option Quote := depth md !! 0%nat.

(** The size of the backing vector; 0 before it is allocated. *)
Definition derived_size (md : t) : nat :=
  match derived md with
  | None => 0%nat
  | Some vec => length vec
  end.

(** The vector [SetDerived] is about to write to:
    [if (!derived) derived = new AnyVec;
     if (derived->size() <= id) derived->resize(id);] *)
Definition SetDerived_storage (id : nat) (md : t) : AnyVec :=
  let vec := match derived md with
             | None => []
             | Some vec => vec
             end in
  if decide (length vec <= id)%nat then vector_resize id vec else vec.

(** [void SetDerived(std::any value, size_t id)]. *)
Definition SetDerived (value : any) (id : nat) (md : t) : outcome t :=
  _ ← assert (bool_decide (id < 16)%nat);
  vec ← vector_store (SetDerived_storage id md) id value;
  Normal (mkMarketData (tm md) (trade md) (depth md) (Some vec)).

(** [template <typename T> const T* GetDerived(size_t id) const]. *)
Definition GetDerived (T : ctype) (id : nat) (md : t) : outcome pointer :=
  match derived md with
  | None => Normal nullptr
  | Some vec =>
      if decide (length vec <= id)%nat then Normal nullptr  (* id >= size() *)
      else try_catch
             (a ← vector_at vec id; any_cast (Tconst_ptr T) a)
             bad_any_cast
             (Normal nullptr)
  end.

(** What a slot of the derived cache holds, if anything: nothing when the
    cache was never allocated, when the slot is beyond the vector, and
    when the slot's [std::any] is empty. *)
Definition slot (id : nat) (md : t) : option object :=
  vec ← derived md; a ← vec !! id; a.

(** Whether a statement ran to completion. *)
Definition is_normal {A} (o : outcome A) : bool :=
  match o with
  | Normal _ => true
  | _ => false
  end.

(** A run of [SetDerived] calls on one record, in order; nothing runs
    after a call that does not return. *)
Fixpoint SetDerived_seq (writes : list (any * nat)) (md : t) : outcome t :=
  match writes with
  | [] => Normal md
  | (value, id) :: rest =>
      md' ← SetDerived value id md; SetDerived_seq rest md'
  end.

End MarketData.

(** ** [struct Throttle] *)

Module Throttle.

Import Cxx.
Local Open Scope Z_scope.

(** [tbb::atomic<int> n = 0; int tm = 0;] *)
Record t := mkThrottle { n : Z; tm : Z }.

Definition init : t := mkThrottle 0 0.

(** [int operator()(int tm) const]:
    [if (tm != this->tm) return 0; return n;] *)
Definition read (tm' : Z) : M t Z :=
  this ← get;
  if negb (tm' =? tm this) then mret 0 else mret (n this).

(** [void Update(int tm2)]:
    [if (tm2 != tm) { n = 0; tm2 = tm; } else { n++; }].
    The assignment [tm2 = tm] overwrites the parameter, a local of the
    call; the member [tm] is not written. *)
Definition Update (tm2 : Z) : M t unit :=
  this ← get;
  if negb (tm2 =? tm this) then
    let tm2 := tm this in
    put (mkThrottle 0 (tm this))
  else
    put (mkThrottle (i32 (n this + 1)) (tm this)).

(** A run of updates, one per second of the list, in order. *)
Fixpoint updates (seconds : list Z) : M t unit :=
  match seconds with
  | [] => mret tt
  | s :: rest => _ ← Update s; updates rest
  end.

End Throttle.

(** ** [struct Limits] and [class RiskManager] *)

Module RiskManager.

Import Cxx.
Local Open Scope Z_scope.
Local Open Scope string_scope.

(** [struct Limits]; every field defaults to 0. *)
Record Limits := mkLimits {
  msg_rate : double;               (* per second *)
  msg_rate_per_security : double;  (* per security per second *)
  order_qty : double;
  order_value : double;
  value : double;                  (* per security *)
  turnover : double;
  total_value : double;
  total_turnover : double
}.

Definition Limits_default : Limits :=
  mkLimits double_zero double_zero double_zero double_zero
           double_zero double_zero double_zero double_zero.

(** Modelled from the spec: [struct Order] is only declared in [risk.h].
    These are the read-only attributes the risk manager consumes: the
    security, the quantity and the notional value of the order, and the
    per-security and total value and turnover that accepting the order
    would lead to. *)
Record Order := mkOrder {
  sec : Z;
  qty : double;
  notional : double;
  sec_value : double;
  sec_turnover : double;
  all_value : double;
  all_turnover : double
}.

(** The manager: the [disabled_] flag of [risk.h], and (modelled from the
    spec, the members being defined outside the header) the configured
    limits, the global throttle, one throttle per security, and the
    calling context's [kRiskError]. *)
Record t := mkRiskManager {
  disabled_ : bool;
  limits : Limits;
  throttle : Throttle.t;
  throttle_of_sec : gmap Z Throttle.t;
  kRiskError : string
}.

(** [bool disabled_ = false]. *)
Definition init (l : Limits) : t :=
  mkRiskManager false l Throttle.init ∅ "".

(** [void Disable() { disabled_ = true; }] *)
Definition Disable : M t unit :=
  this ← get;
  put (mkRiskManager true (limits this) (throttle this)
                     (throttle_of_sec this) (kRiskError this)).

Definition set_error (msg : string) : M t unit :=
  this ← get;
  put (mkRiskManager (disabled_ this) (limits this) (throttle this)
                     (throttle_of_sec this) msg).

(** Modelled from the spec: a limit of 0 is disabled; a configured limit
    is violated by an amount above it. *)
Definition violates (limit amount : double) : bool :=
  double_ne limit double_zero && double_gt amount limit.

(** Modelled from the spec: [CheckMsgRate] is declared in [risk.h] and
    defined elsewhere. It evaluates the global and the per-security
    message rate through two throttles keyed by the current second, and
    rejects if either configured bound would be exceeded; an accepted
    message is counted in both. *)
Definition CheckMsgRate (now : Z) (ord : Order) : M t bool :=
  this ← get;
  let per_sec := default Throttle.init (throttle_of_sec this !! sec ord) in
  let seen := eval (Throttle.read now) (throttle this) in
  let seen_sec := eval (Throttle.read now) per_sec in
  if violates (msg_rate (limits this)) (double_of_int (seen + 1)) then
    _ ← set_error "message rate limit breached"; mret false
  else if violates (msg_rate_per_security (limits this))
                   (double_of_int (seen_sec + 1)) then
    _ ← set_error "message rate per security limit breached"; mret false
  else
    _ ← put (mkRiskManager
               (disabled_ this) (limits this)
               (exec (Throttle.Update now) (throttle this))
               (<[sec ord := exec (Throttle.Update now) per_sec]>
                  (throttle_of_sec this))
               (kRiskError this));
    mret true.

(** Modelled from the spec: the limits in their fixed order of
    evaluation, each with the description recorded when it fires. *)
Definition limit_checks (l : Limits) (ord : Order)
  : list (double * double * string) :=
  [ (order_qty l, qty ord, "order quantity limit breached");
    (order_value l, notional ord, "order value limit breached");
    (value l, sec_value ord, "security value limit breached");
    (turnover l, sec_turnover ord, "security turnover limit breached");
    (total_value l, all_value ord, "total value limit breached");
    (total_turnover l, all_turnover ord, "total turnover limit breached") ].

Fixpoint first_violation (checks : list (double * double * string))
  : option string :=
  match checks with
  | [] => None
  | (limit, amount, msg) :: rest =>
      if violates limit amount then Some msg else first_violation rest
  end.

(** Modelled from the spec: [Check] is declared in [risk.h] and defined
    elsewhere. Once the manager is disabled it returns true
    unconditionally; otherwise it returns false on the first violated
    limit, recording its description, and ends with the message-rate
    check. *)
Definition Check (now : Z) (ord : Order) : M t bool :=
  this ← get;
  if disabled_ this then mret true
  else match first_violation (limit_checks (limits this) ord) with
       | Some msg => _ ← set_error msg; mret false
       | None => CheckMsgRate now ord
       end.

(** The operations the class exposes. *)
Inductive call :=
| CallCheck (now : Z) (ord : Order)
| CallCheckMsgRate (now : Z) (ord : Order)
| CallDisable.

Definition step (c : call) (rm : t) : t :=
  match c with
  | CallCheck now ord => exec (Check now ord) rm
  | CallCheckMsgRate now ord => exec (CheckMsgRate now ord) rm
  | CallDisable => exec Disable rm
  end.

(** The manager after a sequence of calls. *)
Definition run (calls : list call) (rm : t) : t := foldl (flip step) rm calls.

End RiskManager.

(* ===================================================================== *)
(** * Properties                                                          *)
(* ===================================================================== *)

(** ** Arithmetic of one packed character *)

Section Packing.

Import Cxx DataSrc.
Local Open Scope Z_scope.

Lemma low_byte (c r : Z) :
  0 <= c < 256 -> Z.land (c + 256 * r) 255 = c.
Proof.
  intros Hc. change 255 with (Z.ones 8).
  rewrite Z.land_ones by lia. change (2 ^ 8) with 256.
  replace (c + 256 * r) with (c + r * 256) by lia.
  rewrite Z.mod_add by lia. apply Z.mod_small; lia.
Qed.

Lemma drop_low_byte (c r : Z) :
  0 <= c < 256 -> Z.shiftr (c + 256 * r) 8 = r.
Proof.
  intros Hc. rewrite Z.shiftr_div_pow2 by lia. change (2 ^ 8) with 256.
  replace (c + 256 * r) with (c + r * 256) by lia.
  rewrite Z.div_add by lia. rewrite (Z.div_small c) by lia. lia.
Qed.

Lemma to_char_ascii (c : char) : char_is_ascii c -> to_char c = c.
Proof.
  unfold char_is_ascii, to_char. intros Hc.
  change (2 ^ 7) with 128. change (2 ^ 8) with 256.
  rewrite Z.mod_small; lia.
Qed.

Lemma pack_nonneg (s : list char) : Forall char_is_ascii s -> 0 <= pack s.
Proof.
  induction 1 as [|c rest Hc _ IH]; simpl; unfold char_is_ascii in *; lia.
Qed.

Lemma pack_lt (s : list char) :
  Forall char_is_ascii s -> pack s < 256 ^ Z.of_nat (length s).
Proof.
  induction 1 as [|c rest Hc Hrest IH]; [reflexivity|].
  cbn [pack length]. rewrite Nat2Z.inj_succ, Z.pow_succ_r by lia.
  unfold char_is_ascii in Hc. lia.
Qed.

Lemma pack_app (a b : list char) :
  pack (a ++ b) = pack a + 256 ^ Z.of_nat (length a) * pack b.
Proof.
  induction a as [|c a IH]; cbn [pack app length].
  - change (Z.of_nat 0) with 0. lia.
  - rewrite IH, Nat2Z.inj_succ, Z.pow_succ_r by lia. ring.
Qed.

Lemma pack_pos (c : char) (rest : list char) :
  Forall char_is_ascii (c :: rest) -> 0 < pack (c :: rest).
Proof.
  intros H. inversion H as [|? ? Hc Hrest]; subst.
  apply pack_nonneg in Hrest. unfold char_is_ascii in Hc.
  cbn [pack]. lia.
Qed.

End Packing.

(** ** [DataSrc::GetId] and [DataSrc::GetStr] *)

Section DataSrc_facts.

Import Cxx DataSrc.
Local Open Scope Z_scope.

Lemma strlen_nonneg (s : cstr) : 0 <= strlen s.
Proof. induction s as [|c s IH]; simpl; [lia | destruct (c =? 0); lia]. Qed.

Lemma strlen_c_str (name : list char) :
  Forall (fun c => c <> 0) name ->
  strlen (c_str name) = Z.of_nat (length name).
Proof.
  unfold c_str. induction 1 as [|c rest Hc _ IH]; [reflexivity|].
  cbn [app strlen length]. apply Z.eqb_neq in Hc. rewrite Hc, IH. lia.
Qed.

(** One step of [GetId] at a character that is not the terminator. *)
Lemma GetId_at_cons (c : char) (rest : cstr) :
  c <> 0 ->
  GetId_at (c :: rest) =
    if strlen rest =? 0 then u32 c
    else u32 (u32 (Z.shiftl (GetId_at rest) 8) + u32 c).
Proof.
  intros Hc. cbn [GetId_at strlen]. apply Z.eqb_neq in Hc. rewrite Hc.
  pose proof (strlen_nonneg rest).
  destruct (strlen rest =? 0) eqn:E0, (1 + strlen rest =? 1) eqn:E1;
    try reflexivity; lia.
Qed.

(** On a terminated run of characters none of which is the terminator,
    [GetId] is the little-endian packing reduced modulo 2^32. *)
Lemma GetId_at_pack (name : list char) :
  Forall (fun c => c <> 0) name ->
  GetId_at (c_str name) = pack name mod 2 ^ 32.
Proof.
  induction 1 as [|c rest Hc Hrest IH]; [reflexivity|].
  change (c_str (c :: rest)) with (c :: c_str rest).
  rewrite GetId_at_cons, strlen_c_str, IH by done.
  cbn [pack]. unfold u32.
  destruct rest as [|c' rest'].
  - cbn. f_equal. lia.
  - destruct (Z.of_nat (length (c' :: rest')) =? 0) eqn:E;
      [apply Z.eqb_eq in E; cbn [length] in E; lia|].
    rewrite Z.shiftl_mul_pow2 by lia. change (2 ^ 8) with 256.
    rewrite Z.mul_mod_idemp_l, <- Z.add_mod by lia.
    f_equal. lia.
Qed.

Lemma ascii_not_terminator (name : list char) :
  Forall char_is_ascii name -> Forall (fun c => c <> 0) name.
Proof.
  intros H. eapply Forall_impl; [exact H|].
  unfold char_is_ascii. intros; lia.
Qed.

(** On a name of at most four ASCII characters nothing wraps. *)
Lemma of_string_pack (name : list char) :
  Forall char_is_ascii name -> (length name <= 4)%nat ->
  of_string name = pack name.
Proof.
  intros Hascii Hlen. unfold of_string, GetId.
  rewrite GetId_at_pack by (by apply ascii_not_terminator).
  apply Z.mod_small. split; [by apply pack_nonneg|].
  eapply Z.lt_le_trans; [by apply pack_lt|].
  change (2 ^ 32) with (256 ^ 4). apply Z.pow_le_mono_r; lia.
Qed.

(** The loop of [GetStr] writes the characters of a packed name, in
    order, from position [i] on. *)
Lemma GetStr_loop_pack (name : list char) :
  forall (left i : nat) (buf : list char),
    Forall char_is_ascii name ->
    (length name <= left)%nat -> (i + length name <= length buf)%nat ->
    GetStr_loop left i (pack name) buf =
      ((i + length name)%nat,
       take i buf ++ name ++ drop (i + length name) buf).
Proof.
  induction name as [|c rest IH]; intros left i buf Hascii Hleft Hbuf.
  - cbn [pack length]. rewrite Nat.add_0_r, app_nil_l, take_drop.
    destruct left; reflexivity.
  - destruct left as [|left']; [cbn in Hleft; lia|].
    pose proof (pack_pos _ _ Hascii) as Hpos.
    inversion Hascii as [|? ? Hc Hrest]; subst.
    cbn [GetStr_loop]. cbn [length] in *.
    destruct (pack (c :: rest) =? 0) eqn:E; [apply Z.eqb_eq in E; lia|].
    cbn [pack].
    assert (0 <= c < 256) as Hbyte by (unfold char_is_ascii in Hc; lia).
    rewrite low_byte, drop_low_byte, to_char_ascii by done.
    rewrite IH by (rewrite ?length_insert; done || lia).
    f_equal; [lia|].
    assert (is_Some (buf !! i)) as [x Hx] by (apply lookup_lt_is_Some; lia).
    rewrite (take_S_r (<[i:=c]> buf) i c)
      by (apply list_lookup_insert_eq; lia).
    rewrite take_insert_ge by lia.
    rewrite drop_insert_lt by lia.
    rewrite <- app_assoc. cbn [app].
    replace (S i + length rest)%nat with (i + S (length rest))%nat by lia.
    reflexivity.
Qed.

Lemma read_cstr_terminated (name tail : list char) :
  Forall (fun c => c <> 0) name -> read_cstr (name ++ 0 :: tail) = name.
Proof.
  induction 1 as [|c rest Hc _ IH]; [reflexivity|].
  cbn [app read_cstr]. apply Z.eqb_neq in Hc. rewrite Hc. by rewrite IH.
Qed.

(** Decoding a packed name of at most four ASCII characters gives the
    name back, whatever the buffer held. *)
Lemma str_pack (name buf : list char) :
  Forall char_is_ascii name -> (length name <= 4)%nat ->
  length buf = 5%nat ->
  str (pack name) buf = name.
Proof.
  intros Hascii Hlen Hbuf. unfold str, GetStr.
  rewrite (GetStr_loop_pack name 4 0 buf) by (done || lia).
  rewrite take_0. cbn [app Nat.add].
  rewrite insert_app_r_alt by done. rewrite Nat.sub_diag.
  destruct (drop (length name) buf) as [|x tail] eqn:E.
  - apply (f_equal length) in E. rewrite length_drop in E. cbn in E. lia.
  - cbn. by apply read_cstr_terminated, ascii_not_terminator.
Qed.

End DataSrc_facts.

Section DataSrc_codec.

Import Cxx DataSrc.
Local Open Scope Z_scope.

(** Names that agree on their first four characters get the same
    identifier, as soon as none of their characters is the terminator. *)
Lemma of_string_take_4 (name : list char) :
  Forall (fun c => c <> 0) name -> (4 <= length name)%nat ->
  of_string name = of_string (take 4 name).
Proof.
  intros Hname Hlen. unfold of_string, GetId.
  rewrite !GetId_at_pack by (done || by apply Forall_take).
  rewrite <- (take_drop 4 name) at 1.
  rewrite pack_app, length_take, Nat.min_l by done.
  change (256 ^ Z.of_nat 4) with (2 ^ 32).
  rewrite (Z.mul_comm (2 ^ 32)). apply Z.mod_add. lia.
Qed.

(** C3. For every source name of 1 to 4 ASCII characters, decoding the
    encoded identifier yields the name again, whatever the decoding
    buffer held before; two such names with the same identifier are the
    same name; the empty name and the null pointer encode to 0; and 0
    decodes to the empty string. *)
Theorem DataSrc_roundtrip (name other buf : list char) :
  Forall char_is_ascii name -> (1 <= length name <= 4)%nat ->
  Forall char_is_ascii other -> (1 <= length other <= 4)%nat ->
  length buf = 5%nat ->
  str (of_string name) buf = name
  /\ (of_string name = of_string other -> name = other)
  /\ of_string [] = 0
  /\ GetId None = 0
  /\ str 0 buf = [].
Proof.
  intros Hname Hlen Hother Hlen' Hbuf.
  assert (forall s, Forall char_is_ascii s -> (length s <= 4)%nat ->
                    str (of_string s) buf = s) as Hround.
  { intros s Hs Hl. rewrite of_string_pack by done. by apply str_pack. }
  split; [apply Hround; done || lia|].
  split.
  { intros Heq. rewrite <- (Hround name), <- (Hround other) by (done || lia).
    by rewrite Heq. }
  repeat split.
  destruct buf; [discriminate|reflexivity].
Qed.

Lemma DataSrc_roundtrip_witness :
  str (of_string [65; 66; 67; 68]) [0; 0; 0; 0; 0] = [65; 66; 67; 68]
  /\ (of_string [65; 66; 67; 68] = of_string [88] -> [65; 66; 67; 68] = [88])
  /\ of_string [] = 0
  /\ GetId None = 0
  /\ str 0 [0; 0; 0; 0; 0] = [].
Proof.
  apply (DataSrc_roundtrip [65; 66; 67; 68] [88] [0; 0; 0; 0; 0]);
    repeat constructor; unfold char_is_ascii; cbn; lia.
Defined.

(** C10. For every ASCII source name longer than four characters, the
    identifier computed in 32-bit wrap-around arithmetic is the identifier
    of the name's first four characters; hence the encoding is not
    injective on such names: another ASCII name longer than four
    characters has the same identifier. *)
Theorem of_string_long_name_truncates (name : list char) :
  Forall char_is_ascii name -> (4 < length name)%nat ->
  of_string name = of_string (take 4 name)
  /\ exists other : list char,
       other <> name /\ Forall char_is_ascii other
       /\ (4 < length other)%nat /\ of_string other = of_string name.
Proof.
  intros Hname Hlen.
  assert (forall s, Forall char_is_ascii s -> (4 < length s)%nat ->
                    of_string s = of_string (take 4 s)) as Htrunc.
  { intros s Hs Hl. apply of_string_take_4; [|lia].
    by apply ascii_not_terminator. }
  split; [by apply Htrunc|].
  exists (name ++ [65]).
  assert (Forall char_is_ascii (name ++ [65])) as Hother.
  { apply Forall_app. split; [done|].
    repeat constructor; unfold char_is_ascii; lia. }
  assert (4 < length (name ++ [65%Z]))%nat as Hlen'
      by (rewrite length_app; cbn; lia).
  repeat split; [|done|done|].
  - intros Heq. apply (f_equal length) in Heq.
    rewrite length_app in Heq. cbn in Heq. lia.
  - rewrite (Htrunc _ Hother Hlen'), (Htrunc _ Hname Hlen).
    by rewrite take_app_le by lia.
Qed.

Lemma of_string_long_name_truncates_witness :
  of_string [65; 66; 67; 68; 69] = of_string (take 4 [65; 66; 67; 68; 69])
  /\ exists other : list char,
       other <> [65; 66; 67; 68; 69] /\ Forall char_is_ascii other
       /\ (4 < length other)%nat
       /\ of_string other = of_string [65; 66; 67; 68; 69].
Proof.
  apply (of_string_long_name_truncates [65; 66; 67; 68; 69]);
    repeat constructor; unfold char_is_ascii; cbn; lia.
Defined.

End DataSrc_codec.

(** ** The state monad *)

Section State_monad.

Import Cxx.
Context {S A B : Type}.

Lemma exec_bind (m : M S A) (k : A -> M S B) (s : S) :
  exec (m ≫= k) s = exec (k (eval m s)) (exec m s).
Proof.
  unfold exec, eval, mbind, M_bind, bind. by destruct (m s).
Qed.

Lemma eval_bind (m : M S A) (k : A -> M S B) (s : S) :
  eval (m ≫= k) s = eval (k (eval m s)) (exec m s).
Proof.
  unfold exec, eval, mbind, M_bind, bind. by destruct (m s).
Qed.

End State_monad.

(** ** [Throttle] *)

Section Throttle_facts.

Import Cxx Throttle.
Local Open Scope Z_scope.

(** What one [Update] does: at the stored second it increments the
    counter, at any other second it resets the counter to 0; the stored
    second is the same afterwards in both cases. *)
Lemma Update_spec (second : Z) (this : Throttle.t) :
  exec (Update second) this =
    if second =? tm this then mkThrottle (i32 (n this + 1)) (tm this)
    else mkThrottle 0 (tm this).
Proof.
  unfold exec, Update, mbind, M_bind, bind, get, put. cbn.
  by destruct (second =? tm this).
Qed.

(** [Update] never writes the member [tm]. *)
Lemma Update_tm (second : Z) (this : Throttle.t) :
  tm (exec (Update second) this) = tm this.
Proof. rewrite Update_spec. by destruct (second =? tm this). Qed.

Lemma updates_tm (seconds : list Z) (this : Throttle.t) :
  tm (exec (updates seconds) this) = tm this.
Proof.
  revert this. induction seconds as [|s rest IH]; intros this; [done|].
  cbn [updates]. by rewrite exec_bind, IH, Update_tm.
Qed.

(** A read for a second other than the stored one yields 0. *)
Lemma read_other_second (second : Z) (this : Throttle.t) :
  second <> tm this -> eval (read second) this = 0.
Proof.
  intros Hne. unfold eval, read, mbind, M_bind, bind, get. cbn.
  apply Z.eqb_neq in Hne. by rewrite Hne.
Qed.

(** C8. For every throttle and every second, reading the counter for that
    second returns the live count when the second is the stored bucket
    and zero when it is not, and leaves the throttle as it was. *)
Theorem Throttle_read_spec (this : Throttle.t) (second : Z) :
  (second = tm this -> eval (read second) this = n this)
  /\ (second <> tm this -> eval (read second) this = 0)
  /\ exec (read second) this = this.
Proof.
  unfold eval, exec, read, mbind, M_bind, bind, get. cbn.
  destruct (second =? tm this) eqn:E; cbn.
  - apply Z.eqb_eq in E. repeat split; done.
  - apply Z.eqb_neq in E. repeat split; done.
Qed.

(** C1, on the code as written. [Update] leaves the stored bucket alone:
    from a default throttle, three updates at second 100 leave the read
    at second 100 at 0; from a throttle already at second 100 with
    count 5, the same updates give 8, so the result depends on the prior
    state; and two further updates at second 101 leave the read at
    second 101 at 0. After any run of updates from a default throttle,
    every read at a second other than 0 yields 0. *)
Theorem Throttle_Update_keeps_stale_bucket :
  eval (_ ← updates [100; 100; 100]; read 100) init = 0
  /\ eval (_ ← updates [100; 100; 100]; read 100) (mkThrottle 5 100) = 8
  /\ eval (_ ← updates [100; 100; 100; 101; 101]; read 101) init = 0
  /\ eval (_ ← updates [100; 100; 100; 101; 101]; read 101)
          (mkThrottle 5 100) = 0
  /\ forall (seconds : list Z) (second : Z),
       second <> 0 -> eval (_ ← updates seconds; read second) init = 0.
Proof.
  repeat split; try reflexivity.
  intros seconds second Hne.
  rewrite eval_bind. apply read_other_second. by rewrite updates_tm.
Qed.

End Throttle_facts.

(** ** Comparison of trades and quotes *)

Section Comparison_facts.

Import Cxx MarketData.
Local Open Scope Z_scope.

Lemma int_ne_true (a b : Z) : int_ne a b = true <-> a <> b.
Proof.
  unfold int_ne. rewrite negb_true_iff. apply Z.eqb_neq.
Qed.

(** A double that is not a NaN does not differ from itself. *)
Lemma double_ne_refl (x : double) : x <> S754_nan -> double_ne x x = false.
Proof.
  intros Hx. unfold double_ne, SFeqb.
  destruct x as [s|s| |s m e]; cbn; try done.
  - by destruct s.
  - rewrite Z.compare_refl.
    change (Pos.compare_cont Eq m m) with (Pos.compare m m).
    rewrite Pos.compare_refl. by destruct s.
Qed.

(** X2. A trade whose close, high and low are not NaN compares as not changed
    with any trade that has the same volume, close, high and low. *)
Lemma Trade_ne_same_bar (a : Trade) (q : Qty) (o w : double) :
  close a <> S754_nan -> high a <> S754_nan -> low a <> S754_nan ->
  Trade_ne a (mkTrade q o (high a) (low a) (close a) w (volume a)) = false.
Proof.
  intros Hc Hh Hl. unfold Trade_ne. cbn.
  rewrite !double_ne_refl by done. unfold int_ne. by rewrite Z.eqb_refl.
Qed.

Lemma Trade_ne_same_bar_witness :
  Trade_ne Trade_default
           (mkTrade 7 double_zero (high Trade_default) (low Trade_default)
                    (close Trade_default) double_zero (volume Trade_default))
  = false.
Proof.
  apply (Trade_ne_same_bar Trade_default 7 double_zero double_zero);
    discriminate.
Defined.

(** A quote with a NaN price is unequal to itself, as [!=] on doubles has
    it; positive and negative zero do not differ. *)
Example Quote_ne_nan_self :
  Quote_ne (mkQuote S754_nan double_zero 0 0)
           (mkQuote S754_nan double_zero 0 0) = true
  /\ Quote_eq (mkQuote (S754_zero true) double_zero 0 0)
              (mkQuote (S754_zero false) double_zero 0 0) = true.
Proof. split; reflexivity. Qed.

End Comparison_facts.

(** ** The derived-value cache *)

Section Derived_facts.

Import Cxx MarketData.
Local Open Scope nat_scope.

(** After the lazy allocation and the conditional resize the vector has
    [id] elements if it had at most [id], and is unchanged otherwise. *)
Lemma SetDerived_storage_length (id : nat) (md : MarketData.t) :
  length (SetDerived_storage id md) = Nat.max id (derived_size md).
Proof.
  unfold SetDerived_storage, derived_size, vector_resize.
  destruct (derived md) as [vec|]; cbn [length]; case_decide;
    rewrite ?length_resize; cbn [length]; lia.
Qed.

Lemma SetDerived_storage_fresh_length (id : nat) :
  length (SetDerived_storage id fresh) = id.
Proof. rewrite SetDerived_storage_length. cbn. lia. Qed.

(** On a record without a cache the write is out of bounds. *)
Lemma vector_store_fresh (value : any) (id : nat) :
  vector_store (SetDerived_storage id fresh) id value = Undefined.
Proof.
  unfold vector_store. rewrite SetDerived_storage_fresh_length.
  case_decide; [lia|done].
Qed.

(** The write is in bounds exactly when the slot already existed. *)
Lemma SetDerived_defined (value : any) (id : nat) (md : MarketData.t) :
  id < 16 ->
  (exists md', SetDerived value id md = Normal md') <-> id < derived_size md.
Proof.
  intros Hid. unfold SetDerived, vector_store.
  rewrite bool_decide_eq_true_2 by done. cbn.
  pose proof (SetDerived_storage_length id md) as Hlen.
  case_decide; cbn; split; try lia; eauto.
  intros [md' Hmd']. discriminate.
Qed.

(** Where the slot already exists, the write lands in it. *)
Lemma SetDerived_in_bounds (value : any) (id : nat) (md : MarketData.t)
      (vec : AnyVec) :
  id < 16 -> derived md = Some vec -> id < length vec ->
  SetDerived value id md =
    Normal (mkMarketData (tm md) (trade md) (depth md)
                         (Some (<[id := value]> vec))).
Proof.
  intros Hid Hvec Hlt. unfold SetDerived, SetDerived_storage, vector_store.
  rewrite bool_decide_eq_true_2, Hvec by done. cbn.
  repeat case_decide; try lia. reflexivity.
Qed.

(** [GetDerived<T>] hands out the address held by a slot that holds a
    [const T*], and [nullptr] in every other case. *)
Lemma GetDerived_slot (T : ctype) (id : nat) (md : MarketData.t) :
  GetDerived T id md =
    Normal match slot id md with
           | Some o => if decide (type_of o = Tconst_ptr T) then repr o
                       else nullptr
           | None => nullptr
           end.
Proof.
  unfold GetDerived, slot, vector_at.
  destruct (derived md) as [vec|]; [|done].
  cbn [mbind option_bind].
  destruct (vec !! id) as [[o|]|] eqn:E; cbn; case_decide as Hge;
    try done.
  - apply lookup_lt_Some in E. lia.
  - by case_decide.
  - apply lookup_ge_None_1 in E. lia.
Qed.

End Derived_facts.

Section Derived_cache.

Import Cxx MarketData.
Local Open Scope nat_scope.

(** C9. For every record and every slot (in particular every slot in
    [0,16)), [GetDerived<T>] returns normally, never letting an exception
    reach its caller; and it returns [nullptr] when the derived cache was
    never allocated, when the slot was never written (it lies beyond the
    vector, or holds the empty [std::any] that [resize] put there), and
    when the stored value's type does not match the requested one, that
    is, when [std::any_cast<const T*>] rejects it. *)
Theorem GetDerived_absent_never_raises
        (T : ctype) (id : nat) (md : MarketData.t) :
  (exists p : pointer, GetDerived T id md = Normal p)
  /\ (derived md = None -> GetDerived T id md = Normal nullptr)
  /\ (forall vec : AnyVec,
        derived md = Some vec -> vec !! id = None \/ vec !! id = Some None ->
        GetDerived T id md = Normal nullptr)
  /\ (forall (vec : AnyVec) (o : object),
        derived md = Some vec -> vec !! id = Some (Some o) ->
        type_of o <> Tconst_ptr T ->
        GetDerived T id md = Normal nullptr).
Proof.
  rewrite GetDerived_slot. unfold slot.
  split; [eauto|]. split; [|split].
  - by intros ->.
  - intros vec Hvec Hslot. rewrite Hvec. cbn [mbind option_bind].
    by destruct Hslot as [-> | ->].
  - intros vec o Hvec Hslot Hty. rewrite Hvec. cbn [mbind option_bind].
    rewrite Hslot. cbn. by case_decide.
Qed.

(** C4, on the code as written. On a record whose cache is not
    allocated, the vector that [SetDerived] has after the lazy
    allocation and the resize holds exactly [id] elements, not more, so
    the write at index [id] is out of bounds for every slot. *)
Theorem SetDerived_storage_too_short (value : any) (id : nat) :
  length (SetDerived_storage id fresh) = id
  /\ ~ (id < length (SetDerived_storage id fresh))
  /\ vector_store (SetDerived_storage id fresh) id value = Undefined.
Proof.
  rewrite vector_store_fresh, SetDerived_storage_fresh_length.
  repeat split. lia.
Qed.

(** C2, on the code as written. On a default-initialised record, storing
    a [const T*] in any slot of [0,16) is an out-of-bounds write, hence
    undefined behaviour, and fails the assertion for any other slot; and
    the record as it stands when the write is attempted, with the
    resized vector, has nothing to read at that slot. *)
Theorem SetDerived_fresh_is_undefined (T : ctype) (p : pointer) (id : nat) :
  SetDerived (Some (mkObject (Tconst_ptr T) p)) id fresh =
    (if decide (id < 16) then Undefined else Aborted)
  /\ GetDerived T id
       (mkMarketData (tm fresh) (trade fresh) (depth fresh)
                     (Some (SetDerived_storage id fresh)))
     = Normal nullptr.
Proof.
  split.
  - unfold SetDerived. rewrite vector_store_fresh.
    case_decide as Hid.
    + by rewrite bool_decide_eq_true_2.
    + by rewrite bool_decide_eq_false_2.
  - rewrite GetDerived_slot. unfold slot. cbn [derived mbind option_bind].
    rewrite lookup_ge_None_2; [done|].
    by rewrite SetDerived_storage_fresh_length.
Qed.

(** X1. Where the slot already exists the round trip works: a [const T*]
    stored by [SetDerived] is what [GetDerived<T>] returns. *)
Lemma SetDerived_GetDerived_in_bounds
      (T : ctype) (p : pointer) (id : nat) (md : MarketData.t) :
  id < 16 -> id < derived_size md ->
  exists md',
    SetDerived (Some (mkObject (Tconst_ptr T) p)) id md = Normal md'
    /\ GetDerived T id md' = Normal p.
Proof.
  intros Hid Hlt. unfold derived_size in Hlt.
  destruct (derived md) as [vec|] eqn:Hvec; [|lia].
  eexists. split; [by eapply SetDerived_in_bounds|].
  rewrite GetDerived_slot. unfold slot. cbn [derived mbind option_bind].
  rewrite list_lookup_insert_eq by done. cbn. by case_decide.
Qed.

Lemma SetDerived_GetDerived_in_bounds_witness :
  exists md',
    SetDerived (Some (mkObject (Tconst_ptr Tdouble) 4096%Z)) 0
               (mkMarketData 0%Z Trade_default [] (Some [None])) = Normal md'
    /\ GetDerived Tdouble 0 md' = Normal 4096%Z.
Proof.
  apply (SetDerived_GetDerived_in_bounds
           Tdouble 4096%Z 0 (mkMarketData 0%Z Trade_default [] (Some [None])));
    cbn; lia.
Defined.

End Derived_cache.

(** ** [RiskManager] *)

Section RiskManager_facts.

Import Cxx RiskManager.

Lemma Check_disabled (now : Z) (ord : Order) (rm : RiskManager.t) :
  disabled_ rm = true -> Check now ord rm = (true, rm).
Proof.
  intros Hd. unfold Check, mbind, M_bind, bind, get. cbn. by rewrite Hd.
Qed.

Lemma CheckMsgRate_disabled_ (now : Z) (ord : Order) (rm : RiskManager.t) :
  disabled_ (exec (CheckMsgRate now ord) rm) = disabled_ rm.
Proof.
  unfold exec, CheckMsgRate, set_error, mbind, M_bind, bind, get, put.
  cbn. repeat case_match; reflexivity.
Qed.

(** No call clears the flag. *)
Lemma step_keeps_disabled (c : call) (rm : RiskManager.t) :
  disabled_ rm = true -> disabled_ (step c rm) = true.
Proof.
  intros Hd. destruct c as [now ord|now ord|]; cbn [step].
  - unfold exec. by rewrite Check_disabled.
  - by rewrite CheckMsgRate_disabled_.
  - reflexivity.
Qed.

Lemma run_keeps_disabled (calls : list call) (rm : RiskManager.t) :
  disabled_ rm = true -> disabled_ (run calls rm) = true.
Proof.
  revert rm. induction calls as [|c rest IH]; intros rm Hd; [done|].
  cbn. apply IH. by apply step_keeps_disabled.
Qed.

(** C5. Once [Disable] has been called, in every state reached by any
    further sequence of calls to the exposed operations the disabled
    flag is still set, and [Check] returns true for every order, whatever
    the configured limits. *)
Theorem Disable_is_permanent
        (rm : RiskManager.t) (calls : list call) (now : Z) (ord : Order) :
  disabled_ (run calls (exec Disable rm)) = true
  /\ eval (Check now ord) (run calls (exec Disable rm)) = true.
Proof.
  assert (disabled_ (run calls (exec Disable rm)) = true) as Hd
      by (by apply run_keeps_disabled).
  split; [done|]. unfold eval. by rewrite Check_disabled.
Qed.

(** The bypass is not vacuous: a manager with an order-quantity limit of
    10 rejects an order of 11 and records why; once disabled it accepts the
    same order. *)
Example Check_rejects_then_bypasses :
  let l := mkLimits double_zero double_zero (double_of_int 10) double_zero
                    double_zero double_zero double_zero double_zero in
  let ord := mkOrder 1 (double_of_int 11) double_zero double_zero
                     double_zero double_zero double_zero in
  eval (Check 100 ord) (init l) = false
  /\ kRiskError (exec (Check 100 ord) (init l))
     = "order quantity limit breached"%string
  /\ eval (Check 100 ord) (exec Disable (init l)) = true
  /\ eval (Check 100 ord) (init Limits_default) = true.
Proof. repeat split; reflexivity. Qed.

End RiskManager_facts.

(** ** More on the codec: terminators, the zero identifier, the buffer *)

Section DataSrc_edges.

Import Cxx DataSrc.
Local Open Scope Z_scope.

Lemma strlen_prefix (a b : list char) :
  Forall (fun c => c <> 0) a -> strlen (a ++ 0 :: b) = Z.of_nat (length a).
Proof.
  induction 1 as [|c rest Hc _ IH]; [reflexivity|].
  cbn [app strlen length]. apply Z.eqb_neq in Hc. rewrite Hc, IH. lia.
Qed.

(** [GetId] reads nothing behind the first terminator. *)
Lemma GetId_at_prefix (a b : list char) :
  Forall (fun c => c <> 0) a -> GetId_at (a ++ 0 :: b) = GetId_at (c_str a).
Proof.
  unfold c_str. induction 1 as [|c rest Hc Hrest IH]; [reflexivity|].
  cbn [app]. rewrite !GetId_at_cons, !strlen_prefix, IH by done.
  reflexivity.
Qed.

(** X3. A [std::string] with an embedded terminator is encoded as the part
    before it: whatever follows the first zero character is ignored. *)
Theorem of_string_stops_at_terminator (a b : list char) :
  Forall (fun c => c <> 0) a -> of_string (a ++ 0 :: b) = of_string a.
Proof.
  intros Ha. unfold of_string, GetId, c_str at 1.
  rewrite <- app_assoc. cbn [app]. by apply GetId_at_prefix.
Qed.

Lemma of_string_stops_at_terminator_witness :
  of_string ([65; 66] ++ 0 :: [67; 68]) = of_string [65; 66].
Proof.
  apply (of_string_stops_at_terminator [65; 66] [67; 68]).
  repeat constructor; lia.
Defined.

Lemma pack_lt_half (s : list char) :
  Forall char_is_ascii s -> 2 * pack s < 256 ^ Z.of_nat (length s).
Proof.
  induction 1 as [|c rest Hc Hrest IH]; [reflexivity|].
  cbn [pack length]. rewrite Nat2Z.inj_succ, Z.pow_succ_r by lia.
  unfold char_is_ascii in Hc. lia.
Qed.

Lemma of_string_short_range (name : list char) :
  Forall char_is_ascii name -> name <> [] -> (length name <= 4)%nat ->
  0 < of_string name < 2 ^ 31.
Proof.
  intros Hascii Hne Hlen. rewrite of_string_pack by done.
  destruct name as [|c rest]; [done|].
  split; [by apply pack_pos|].
  pose proof (pack_lt_half _ Hascii) as Hhalf.
  assert (256 ^ Z.of_nat (length (c :: rest)) <= 256 ^ 4)
    by (apply Z.pow_le_mono_r; lia).
  change (256 ^ 4) with (2 * 2 ^ 31) in *. lia.
Qed.

(** X4. The identifier of a non-empty ASCII name, of any length, is never 0
    (the value that stands for "no source") and stays below 2^31. *)
Theorem of_string_nonzero (name : list char) :
  Forall char_is_ascii name -> name <> [] -> 0 < of_string name < 2 ^ 31.
Proof.
  intros Hascii Hne.
  destruct (decide (length name <= 4)%nat) as [Hshort|Hlong].
  - by apply of_string_short_range.
  - rewrite of_string_take_4 by (by apply ascii_not_terminator || lia).
    apply of_string_short_range.
    + by apply Forall_take.
    + destruct name; [done|discriminate].
    + rewrite length_take. lia.
Qed.

Lemma of_string_nonzero_witness :
  0 < of_string [73; 66; 75; 82; 83] < 2 ^ 31.
Proof.
  apply (of_string_nonzero [73; 66; 75; 82; 83]);
    [repeat constructor; unfold char_is_ascii; lia | discriminate].
Defined.

Lemma length_GetStr_chars (left : nat) (id : IdType) :
  (length (GetStr_chars left id) <= left)%nat.
Proof.
  revert id. induction left as [|left IH]; intros id; cbn; [lia|].
  destruct (id =? 0); cbn; [lia|]. specialize (IH (Z.shiftr id 8)). lia.
Qed.

(** The loop of [GetStr] stores [GetStr_chars] from position [i] on and
    touches nothing else. *)
Lemma GetStr_loop_chars (left : nat) :
  forall (i : nat) (id : IdType) (buf : list char),
    (i + left <= length buf)%nat ->
    GetStr_loop left i id buf =
      ((i + length (GetStr_chars left id))%nat,
       take i buf ++ GetStr_chars left id
            ++ drop (i + length (GetStr_chars left id)) buf).
Proof.
  induction left as [|left IH]; intros i id buf Hbuf;
    cbn [GetStr_loop GetStr_chars].
  - cbn [length app]. by rewrite Nat.add_0_r, take_drop.
  - destruct (id =? 0).
    + cbn [length app]. by rewrite Nat.add_0_r, take_drop.
    + rewrite IH by (rewrite length_insert; lia).
      cbn [length]. f_equal; [lia|].
      rewrite (take_S_r (<[i:=to_char (Z.land id 255)]> buf) i
                        (to_char (Z.land id 255)))
        by (apply list_lookup_insert_eq; lia).
      rewrite take_insert_ge, drop_insert_lt by lia.
      rewrite <- app_assoc. cbn [app].
      by replace (S i + length (GetStr_chars left (Z.shiftr id 8)))%nat
        with (i + S (length (GetStr_chars left (Z.shiftr id 8))))%nat by lia.
Qed.

Lemma read_cstr_app_zero (a tail : list char) :
  read_cstr (a ++ 0 :: tail) = read_cstr a.
Proof.
  induction a as [|c a IH]; [reflexivity|].
  cbn [app read_cstr]. by rewrite IH.
Qed.

Lemma length_read_cstr (s : list char) :
  (length (read_cstr s) <= length s)%nat.
Proof.
  induction s as [|c s IH]; cbn; [lia|]. destruct (c =? 0); cbn; lia.
Qed.

(** What [GetStr] leaves in a five-character buffer. *)
Lemma GetStr_chars_buffer (id : IdType) (buf : list char) :
  length buf = 5%nat ->
  GetStr id buf =
    GetStr_chars 4 id
      ++ 0 :: drop (S (length (GetStr_chars 4 id))) buf.
Proof.
  intros Hbuf. unfold GetStr. rewrite GetStr_loop_chars by lia.
  pose proof (length_GetStr_chars 4 id) as Hlen.
  generalize dependent (GetStr_chars 4 id). intros chars Hlen.
  unfold char, IdType in *.
  rewrite take_0. cbn [app Nat.add].
  rewrite insert_app_r_alt by done. rewrite Nat.sub_diag.
  destruct (drop (length chars) buf) as [|x tail] eqn:E.
  - apply (f_equal length) in E. rewrite length_drop in E.
    cbn [length] in E. lia.
  - cbn. do 2 f_equal.
    replace (S (length chars)) with (length chars + 1)%nat by lia.
    rewrite <- (drop_drop buf 1 (length chars)). by rewrite E.
Qed.

(** The string read from the buffer is a function of the identifier. *)
Lemma str_chars (id : IdType) (buf : list char) :
  length buf = 5%nat -> str id buf = read_cstr (GetStr_chars 4 id).
Proof.
  intros Hbuf. unfold str.
  by rewrite GetStr_chars_buffer, read_cstr_app_zero.
Qed.

Lemma length_GetStr (id : IdType) (buf : list char) :
  length buf = 5%nat -> length (GetStr id buf) = 5%nat.
Proof.
  intros Hbuf. rewrite GetStr_chars_buffer by done.
  pose proof (length_GetStr_chars 4 id).
  rewrite length_app. cbn [length]. rewrite length_drop. lia.
Qed.

(** X5. Decoding never depends on what the [thread_local] buffer held: any
    two five-character buffers give the same string; in particular a
    buffer left by an earlier call decodes the later identifier, so the
    string an earlier call returned is overwritten. The terminator lands
    at an index of at most 4, and the string has at most 4 characters. *)
Theorem str_ignores_buffer (id earlier : IdType) (buf buf' : list char) :
  length buf = 5%nat -> length buf' = 5%nat ->
  str id buf = str id buf'
  /\ str id (GetStr earlier buf) = str id buf
  /\ (fst (GetStr_loop 4 0 id buf) <= 4)%nat
  /\ (length (str id buf) <= 4)%nat.
Proof.
  intros Hbuf Hbuf'.
  pose proof (length_GetStr_chars 4 id) as Hlen.
  rewrite !str_chars by (done || by apply length_GetStr).
  repeat split.
  - rewrite GetStr_loop_chars by lia. cbn [fst Nat.add]. done.
  - etrans; [apply length_read_cstr|done].
Qed.

Lemma str_ignores_buffer_witness :
  str 16961 [1; 2; 3; 4; 5] = str 16961 [0; 0; 0; 0; 0]
  /\ str 16961 (GetStr 1145258561 [1; 2; 3; 4; 5]) = str 16961 [1; 2; 3; 4; 5]
  /\ (fst (GetStr_loop 4 0 16961%Z [1; 2; 3; 4; 5]%Z) <= 4)%nat
  /\ (length (str 16961%Z [1; 2; 3; 4; 5]%Z) <= 4)%nat.
Proof.
  apply (str_ignores_buffer 16961 1145258561 [1; 2; 3; 4; 5] [0; 0; 0; 0; 0]);
    reflexivity.
Defined.

(** X6. An identifier whose low byte is zero decodes to the empty string,
    like the identifier 0, whatever its other bytes are. *)
Theorem str_zero_low_byte (id : IdType) (buf : list char) :
  id mod 256 = 0 -> length buf = 5%nat -> str id buf = [].
Proof.
  intros Hlow Hbuf. rewrite str_chars by done. cbn [GetStr_chars].
  destruct (id =? 0); [reflexivity|].
  change 255 with (Z.ones 8). rewrite Z.land_ones by lia.
  change (2 ^ 8) with 256. by rewrite Hlow.
Qed.

Lemma str_zero_low_byte_witness : str 16640 [9; 9; 9; 9; 9] = [].
Proof. apply (str_zero_low_byte 16640 [9; 9; 9; 9; 9]); reflexivity. Defined.

(** X7. With [char] signed, an identifier that is one byte of 128 or more
    decodes to one negative character, and encoding that string
    sign-extends it: the result is the identifier plus 0xFFFFFF00. *)
Theorem of_string_str_high_byte (id : IdType) (buf : list char) :
  128 <= id <= 255 -> length buf = 5%nat ->
  str id buf = [id - 256]
  /\ of_string (str id buf) = id + 4294967040.
Proof.
  intros Hid Hbuf. rewrite str_chars by done.
  assert (GetStr_chars 4 id = [id - 256]) as ->.
  { cbn [GetStr_chars].
    destruct (id =? 0) eqn:E; [apply Z.eqb_eq in E; lia|].
    replace id with (id + 256 * 0) at 1 2 by lia.
    rewrite low_byte, drop_low_byte by lia. cbn.
    f_equal. unfold to_char. change (2 ^ 7) with 128. change (2 ^ 8) with 256.
    replace (id + 128) with (id - 128 + 1 * 256) by lia.
    rewrite Z.mod_add, Z.mod_small by lia. lia. }
  assert (read_cstr [id - 256] = [id - 256]) as ->.
  { cbn. destruct (id - 256 =? 0) eqn:E; [apply Z.eqb_eq in E; lia|done]. }
  split; [done|].
  unfold of_string, GetId, c_str. cbn [app].
  rewrite GetId_at_cons by lia. cbn [strlen]. cbn.
  unfold u32. change (2 ^ 32) with 4294967296.
  replace (id - 256) with (id + 4294967040 + (-1) * 4294967296) by lia.
  rewrite Z.mod_add, Z.mod_small by lia. done.
Qed.

Lemma of_string_str_high_byte_witness :
  str 200 [0; 0; 0; 0; 0] = [200 - 256]
  /\ of_string (str 200 [0; 0; 0; 0; 0]) = 200 + 4294967040.
Proof.
  apply (of_string_str_high_byte 200 [0; 0; 0; 0; 0]); [lia|reflexivity].
Defined.

End DataSrc_edges.

(** ** More on the derived cache: what a write leaves alone, and runs of
    writes *)

Section Derived_runs.

Import Cxx MarketData.
Local Open Scope nat_scope.

(** A call of [SetDerived] that returns found the slot in place. *)
Lemma SetDerived_Normal_inv (value : any) (id : nat) (md md' : MarketData.t) :
  SetDerived value id md = Normal md' ->
  id < 16
  /\ exists vec : AnyVec,
       derived md = Some vec /\ id < length vec
       /\ md' = mkMarketData (tm md) (trade md) (depth md)
                             (Some (<[id := value]> vec)).
Proof.
  intros Hset.
  destruct (decide (id < 16)) as [Hid|Hid].
  - split; [done|].
    assert (id < derived_size md) as Hlt
        by (apply (SetDerived_defined value id md Hid); eauto).
    unfold derived_size in Hlt.
    destruct (derived md) as [vec|] eqn:Hvec; [|lia].
    exists vec. repeat split; [done|].
    rewrite (SetDerived_in_bounds value id md vec) in Hset by done.
    by injection Hset.
  - unfold SetDerived in Hset. by rewrite bool_decide_eq_false_2 in Hset.
Qed.

(** X8. A write that lands leaves everything else alone: the timestamp,
    the trade, the depth and the size of the cache are as before, the
    written slot holds the value, and every other slot holds, and
    [GetDerived] reads from it, what it did before. *)
Theorem SetDerived_frame (value : any) (id : nat) (md : MarketData.t) :
  id < 16 -> id < derived_size md ->
  exists md' : MarketData.t,
    SetDerived value id md = Normal md'
    /\ tm md' = tm md /\ trade md' = trade md /\ depth md' = depth md
    /\ derived_size md' = derived_size md
    /\ slot id md' = value
    /\ forall j : nat, j <> id ->
         slot j md' = slot j md
         /\ forall U : ctype, GetDerived U j md' = GetDerived U j md.
Proof.
  intros Hid Hlt. unfold derived_size in *.
  destruct (derived md) as [vec|] eqn:Hvec; [|lia].
  eexists. split; [by eapply SetDerived_in_bounds|].
  cbn [tm trade depth derived]. repeat split.
  - by rewrite length_insert.
  - unfold slot. cbn [derived mbind option_bind].
    by rewrite list_lookup_insert_eq.
  - unfold slot. cbn [derived mbind option_bind].
    by rewrite Hvec, list_lookup_insert_ne.
  - intros U. rewrite !GetDerived_slot. unfold slot.
    cbn [derived mbind option_bind].
    by rewrite Hvec, list_lookup_insert_ne.
Qed.

Lemma SetDerived_frame_witness :
  exists md' : MarketData.t,
    SetDerived (Some (mkObject Tint 42)) 1
               (mkMarketData 0%Z Trade_default [] (Some [None; None; None]))
    = Normal md'
    /\ tm md' = 0%Z /\ trade md' = Trade_default /\ depth md' = []
    /\ derived_size md' = 3
    /\ slot 1 md' = Some (mkObject Tint 42)
    /\ forall j : nat, j <> 1 ->
         slot j md'
         = slot j (mkMarketData 0%Z Trade_default [] (Some [None; None; None]))
         /\ forall U : ctype,
              GetDerived U j md'
              = GetDerived U j (mkMarketData 0%Z Trade_default []
                                             (Some [None; None; None])).
Proof.
  apply (SetDerived_frame
           (Some (mkObject Tint 42)) 1
           (mkMarketData 0%Z Trade_default [] (Some [None; None; None])));
    cbn; lia.
Defined.

(** X9. The vector [SetDerived] is about to write to is the old cache
    followed by [id - size] empty slots (none when the slot exists): the
    allocation and the resize never shrink the cache, keep every slot it
    had and add only empty ones, and slot [id] itself exists in it only
    if it existed before. *)
Theorem SetDerived_storage_pads (id : nat) (md : MarketData.t) :
  SetDerived_storage id md
  = default [] (derived md) ++ replicate (id - derived_size md) None
  /\ derived_size md <= length (SetDerived_storage id md)
  /\ (forall j : nat, j < derived_size md ->
        SetDerived_storage id md !! j = default [] (derived md) !! j)
  /\ (id < length (SetDerived_storage id md) <-> id < derived_size md).
Proof.
  assert (SetDerived_storage id md
          = default [] (derived md) ++ replicate (id - derived_size md) None)
    as Heq.
  { unfold SetDerived_storage, derived_size, vector_resize.
    destruct (derived md) as [vec|]; cbn [default length].
    - case_decide as Hle.
      + by apply resize_ge.
      + replace (id - length vec) with 0 by lia.
        cbn. by rewrite app_nil_r.
    - rewrite decide_True by lia. rewrite Nat.sub_0_r.
      by rewrite resize_nil. }
  pose proof (SetDerived_storage_length id md) as Hlen.
  split; [done|]. split; [lia|]. split; [|lia].
  intros j Hj. rewrite Heq. apply lookup_app_l.
  unfold derived_size in Hj. by destruct (derived md).
Qed.

(** X10. On a record whose cache is not allocated, or is empty, no run of
    one or more [SetDerived] calls returns: the first call already fails
    (undefined behaviour below slot 16, a failed assertion from 16 on). *)
Theorem SetDerived_seq_never_starts
        (value : any) (id : nat) (rest : list (any * nat))
        (md : MarketData.t) :
  derived_size md = 0 ->
  is_normal (SetDerived_seq ((value, id) :: rest) md) = false
  /\ SetDerived value id md = if decide (id < 16) then Undefined else Aborted.
Proof.
  intros Hsize.
  assert (SetDerived value id md
          = if decide (id < 16) then Undefined else Aborted) as Hfirst.
  { unfold SetDerived, vector_store.
    pose proof (SetDerived_storage_length id md) as Hlen.
    rewrite Hsize in Hlen.
    destruct (decide (id < length (SetDerived_storage id md))); [lia|].
    destruct (decide (id < 16)) as [Hid|Hid].
    - by rewrite bool_decide_eq_true_2.
    - by rewrite bool_decide_eq_false_2. }
  split; [|done]. cbn [SetDerived_seq]. rewrite Hfirst.
  by case_decide.
Qed.

Lemma SetDerived_seq_never_starts_witness :
  is_normal (SetDerived_seq
               [(Some (mkObject (Tconst_ptr Tdouble) 4096), 0);
                (Some (mkObject (Tconst_ptr Tdouble) 8192), 1)] fresh) = false
  /\ SetDerived (Some (mkObject (Tconst_ptr Tdouble) 4096)) 0 fresh
     = if decide (0 < 16) then Undefined else Aborted.
Proof.
  apply (SetDerived_seq_never_starts
           (Some (mkObject (Tconst_ptr Tdouble) 4096)) 0
           [(Some (mkObject (Tconst_ptr Tdouble) 8192), 1)] fresh).
  reflexivity.
Defined.

End Derived_runs.

(** ** More on comparisons: symmetry, transitivity, and NaN *)

Section Comparison_relations.

Import Cxx MarketData.
Local Open Scope Z_scope.

(** When [==] on doubles holds: both operands are zeros (of any sign), or
    they are the same value and not a NaN. *)
Lemma double_eq_iff (x y : double) :
  SFeqb x y = true <->
  (exists s s', x = S754_zero s /\ y = S754_zero s')
  \/ (x = y /\ x <> S754_nan).
Proof.
  split.
  - unfold SFeqb.
    destruct x as [[]|[]| |[] m e], y as [[]|[]| |[] m' e']; cbn;
      intros Heq; try discriminate; try (left; by eauto);
      try (right; split; by eauto).
    all: destruct (Z.compare_spec e e') as [He|He|He]; try discriminate.
    all: change (Pos.compare_cont Eq m m') with (Pos.compare m m') in Heq.
    all: destruct (Pos.compare_spec m m') as [Hm|Hm|Hm]; try discriminate.
    all: subst; by right.
  - intros [(s & s' & -> & ->)|[<- Hx]]; [reflexivity|].
    apply negb_false_iff. by apply double_ne_refl.
Qed.

Lemma double_eq_sym (x y : double) : SFeqb x y = SFeqb y x.
Proof.
  apply eq_true_iff_eq. rewrite !double_eq_iff.
  split; (intros [(s & s' & -> & ->)|[-> Hn]]; [left; eauto|by right]).
Qed.

Lemma double_ne_sym (x y : double) : double_ne x y = double_ne y x.
Proof. unfold double_ne. by rewrite double_eq_sym. Qed.

Lemma double_eq_trans (x y z : double) :
  double_ne x y = false -> double_ne y z = false -> double_ne x z = false.
Proof.
  unfold double_ne. rewrite !negb_false_iff, !double_eq_iff.
  intros [(s1 & s2 & -> & ->)|[-> Hx]] [(s3 & s4 & Hy & ->)|[<- Hy]].
  - left. eauto.
  - left. eauto.
  - left. eauto.
  - by right.
Qed.

Lemma double_ne_self (x : double) : double_ne x x = false <-> x <> S754_nan.
Proof.
  split; [|apply double_ne_refl].
  intros Hne ->. discriminate.
Qed.

Lemma int_ne_sym (a b : Z) : int_ne a b = int_ne b a.
Proof. unfold int_ne. by rewrite Z.eqb_sym. Qed.

Lemma int_ne_false (a b : Z) : int_ne a b = false <-> a = b.
Proof. unfold int_ne. rewrite negb_false_iff. apply Z.eqb_eq. Qed.

(** The four comparisons behind [Quote::operator==]. *)
Lemma Quote_eq_true (a b : Quote) :
  Quote_eq a b = true <->
  double_ne (ask_price a) (ask_price b) = false
  /\ int_ne (ask_size a) (ask_size b) = false
  /\ double_ne (bid_price a) (bid_price b) = false
  /\ int_ne (bid_size a) (bid_size b) = false.
Proof.
  unfold Quote_eq, Quote_ne.
  rewrite negb_true_iff, !orb_false_iff. tauto.
Qed.

Lemma Trade_ne_false (a b : Trade) :
  Trade_ne a b = false <->
  int_ne (volume a) (volume b) = false
  /\ double_ne (close a) (close b) = false
  /\ double_ne (high a) (high b) = false
  /\ double_ne (low a) (low b) = false.
Proof. unfold Trade_ne. rewrite !orb_false_iff. tauto. Qed.

(** X11. Both quote comparisons are symmetric, and so is the trade
    comparison. *)
Theorem comparisons_symmetric (a b : Quote) (t u : Trade) :
  Quote_ne a b = Quote_ne b a
  /\ Quote_eq a b = Quote_eq b a
  /\ Trade_ne t u = Trade_ne u t.
Proof.
  assert (Quote_ne a b = Quote_ne b a) as Hne.
  { unfold Quote_ne.
    by rewrite (double_ne_sym (ask_price a)), (double_ne_sym (bid_price a)),
      (int_ne_sym (ask_size a)), (int_ne_sym (bid_size a)). }
  repeat split; [done| |].
  - unfold Quote_eq. by rewrite Hne.
  - unfold Trade_ne.
    by rewrite (double_ne_sym (close t)), (double_ne_sym (high t)),
      (double_ne_sym (low t)), (int_ne_sym (volume t)).
Qed.

(** X12. Equality of quotes is transitive. *)
Theorem Quote_eq_trans (a b c : Quote) :
  Quote_eq a b = true -> Quote_eq b c = true -> Quote_eq a c = true.
Proof.
  rewrite !Quote_eq_true, !int_ne_false.
  intros (Hap & Has & Hbp & Hbs) (Hap' & Has' & Hbp' & Hbs').
  repeat split; eauto using double_eq_trans; congruence.
Qed.

Lemma Quote_eq_trans_witness :
  Quote_eq (mkQuote (S754_zero false) (S754_infinity false) 3 4)
           (mkQuote (S754_zero false) (S754_infinity false) 3 4) = true.
Proof.
  apply (Quote_eq_trans
           (mkQuote (S754_zero false) (S754_infinity false) 3 4)
           (mkQuote (S754_zero true) (S754_infinity false) 3 4)
           (mkQuote (S754_zero false) (S754_infinity false) 3 4));
    reflexivity.
Defined.

(** X13. A quote equals itself exactly when neither of its prices is a
    NaN; a trade compares as unchanged with itself exactly when none of
    close, high and low is a NaN. *)
Theorem self_comparison (a : Quote) (t : Trade) :
  (Quote_eq a a = true <->
     ask_price a <> S754_nan /\ bid_price a <> S754_nan)
  /\ (Trade_ne t t = false <->
        close t <> S754_nan /\ high t <> S754_nan /\ low t <> S754_nan).
Proof.
  rewrite Quote_eq_true, Trade_ne_false, !double_ne_self, !int_ne_false.
  tauto.
Qed.

(** X14. "Not changed" is transitive on trades: if [a != b] and [b != c]
    are both false, so is [a != c]. *)
Theorem Trade_unchanged_trans (a b c : Trade) :
  Trade_ne a b = false -> Trade_ne b c = false -> Trade_ne a c = false.
Proof.
  rewrite !Trade_ne_false, !int_ne_false.
  intros (Hv & Hc & Hh & Hl) (Hv' & Hc' & Hh' & Hl').
  repeat split; eauto using double_eq_trans; congruence.
Qed.

Lemma Trade_unchanged_trans_witness :
  Trade_ne (mkTrade 1 double_zero double_zero double_zero double_zero
                    double_zero 10)
           (mkTrade 3 S754_nan double_zero double_zero double_zero
                    S754_nan 10) = false.
Proof.
  apply (Trade_unchanged_trans
           (mkTrade 1 double_zero double_zero double_zero double_zero
                    double_zero 10)
           (mkTrade 2 double_zero (S754_zero true) double_zero double_zero
                    double_zero 10)
           (mkTrade 3 S754_nan double_zero double_zero double_zero
                    S754_nan 10));
    reflexivity.
Defined.

(** On doubles that are not NaN, [!=] holds exactly when the operands
    differ as numbers. *)
Lemma double_ne_iff_differ (x y : double) :
  x <> S754_nan -> y <> S754_nan ->
  double_ne x y = true <-> ~ same_value x y.
Proof.
  intros Hx Hy. unfold double_ne, same_value.
  rewrite negb_true_iff, <- not_true_iff_false, double_eq_iff. tauto.
Qed.

(** [!=] holds as soon as an operand is a NaN. *)
Lemma double_ne_nan (x y : double) :
  x = S754_nan \/ y = S754_nan -> double_ne x y = true.
Proof. intros [-> | ->]; [done|]. by destruct x. Qed.

(** C7, where it fails: a quote with a NaN ask price is unequal to itself,
    though it differs from itself in no field. *)
Lemma Quote_ne_nan_counterexample :
  Quote_ne (mkQuote S754_nan double_zero 1 1)
           (mkQuote S754_nan double_zero 1 1) = true
  /\ Quote_eq (mkQuote S754_nan double_zero 1 1)
              (mkQuote S754_nan double_zero 1 1) = false
  /\ mkQuote S754_nan double_zero 1 1 = mkQuote S754_nan double_zero 1 1.
Proof. repeat split. Qed.

(** C7, as the code has it. For every pair of quotes, [==] is the exact
    negation of [!=]: it holds when [!=] does not and fails when [!=]
    holds. When none of the four prices is a NaN, the two quotes are
    unequal iff they differ in at least one of ask price, bid price, ask
    size, bid size, a positive and a negative zero being the same price.
    When one of the prices is a NaN, the two quotes are unequal. *)
Theorem Quote_ne_iff_fields_differ (a b : Quote) :
  Quote_eq a b = negb (Quote_ne a b)
  /\ (Quote_eq a b = true <-> Quote_ne a b <> true)
  /\ (ask_price a <> S754_nan -> bid_price a <> S754_nan ->
      ask_price b <> S754_nan -> bid_price b <> S754_nan ->
      (Quote_ne a b = true <->
         ~ same_value (ask_price a) (ask_price b)
         \/ ~ same_value (bid_price a) (bid_price b)
         \/ ask_size a <> ask_size b
         \/ bid_size a <> bid_size b))
  /\ (ask_price a = S754_nan \/ bid_price a = S754_nan
      \/ ask_price b = S754_nan \/ bid_price b = S754_nan ->
      Quote_ne a b = true).
Proof.
  split; [reflexivity|]. split; [|split].
  - unfold Quote_eq. rewrite negb_true_iff. by destruct (Quote_ne a b).
  - intros Ha Hb Ha' Hb'. unfold Quote_ne.
    rewrite !orb_true_iff, !int_ne_true.
    pose proof (double_ne_iff_differ _ _ Ha Ha').
    pose proof (double_ne_iff_differ _ _ Hb Hb').
    tauto.
  - intros Hnan. unfold Quote_ne. rewrite !orb_true_iff.
    destruct Hnan as [H|[H|[H|H]]];
      [left; left; left|left; right|left; left; left|left; right];
      apply double_ne_nan; tauto.
Qed.

Lemma Quote_ne_iff_fields_differ_witness :
  Quote_ne (mkQuote (S754_zero true) (S754_infinity false) 3 4)
           (mkQuote (S754_zero false) (S754_infinity false) 3 5) = true
  <-> ~ same_value (S754_zero true) (S754_zero false)
      \/ ~ same_value (S754_infinity false) (S754_infinity false)
      \/ 3 <> 3
      \/ 4 <> 5.
Proof.
  apply (proj1 (proj2 (proj2
           (Quote_ne_iff_fields_differ
              (mkQuote (S754_zero true) (S754_infinity false) 3 4)
              (mkQuote (S754_zero false) (S754_infinity false) 3 5)))));
    discriminate.
Defined.

(** C6, where it fails: two trades with the same volume, high, low and
    the same NaN close, differing only in [qty] and [open], compare as
    changed; and such a trade compares as changed with itself. *)
Lemma Trade_ne_nan_counterexample :
  Trade_ne (mkTrade 1 double_zero double_zero double_zero S754_nan
                    double_zero 10)
           (mkTrade 2 (S754_infinity false) double_zero double_zero S754_nan
                    double_zero 10) = true
  /\ Trade_ne (mkTrade 1 double_zero double_zero double_zero S754_nan
                       double_zero 10)
              (mkTrade 1 double_zero double_zero double_zero S754_nan
                       double_zero 10) = true
  /\ volume (mkTrade 1 double_zero double_zero double_zero S754_nan
                     double_zero 10)
     = volume (mkTrade 2 (S754_infinity false) double_zero double_zero
                       S754_nan double_zero 10)
  /\ close (mkTrade 1 double_zero double_zero double_zero S754_nan
                    double_zero 10)
     = close (mkTrade 2 (S754_infinity false) double_zero double_zero
                      S754_nan double_zero 10)
  /\ high (mkTrade 1 double_zero double_zero double_zero S754_nan
                   double_zero 10)
     = high (mkTrade 2 (S754_infinity false) double_zero double_zero
                     S754_nan double_zero 10)
  /\ low (mkTrade 1 double_zero double_zero double_zero S754_nan
                  double_zero 10)
     = low (mkTrade 2 (S754_infinity false) double_zero double_zero
                    S754_nan double_zero 10).
Proof. repeat split. Qed.

(** C6, as the code has it. For every pair of trades: when none of close,
    high and low is a NaN on either side, [!=] holds iff the trades
    differ in at least one of volume, close, high, low, a positive and a
    negative zero being the same price; when one of these prices is a
    NaN, [!=] holds; [qty], [open] and [vwap] never affect the
    comparison: replacing them on either side leaves the result
    unchanged; so a trade without NaN in close, high and low compares as
    not changed with every trade that differs from it only in [qty],
    [open] and [vwap]. *)
Theorem Trade_ne_iff_bar_differs (a b : Trade) :
  (close a <> S754_nan -> high a <> S754_nan -> low a <> S754_nan ->
   close b <> S754_nan -> high b <> S754_nan -> low b <> S754_nan ->
   (Trade_ne a b = true <->
      volume a <> volume b
      \/ ~ same_value (close a) (close b)
      \/ ~ same_value (high a) (high b)
      \/ ~ same_value (low a) (low b)))
  /\ (close a = S754_nan \/ high a = S754_nan \/ low a = S754_nan
      \/ close b = S754_nan \/ high b = S754_nan \/ low b = S754_nan ->
      Trade_ne a b = true)
  /\ (forall (q q' : Qty) (o o' w w' : double),
        Trade_ne (mkTrade q o (high a) (low a) (close a) w (volume a))
                 (mkTrade q' o' (high b) (low b) (close b) w' (volume b))
        = Trade_ne a b)
  /\ (close a <> S754_nan -> high a <> S754_nan -> low a <> S754_nan ->
      forall (q : Qty) (o w : double),
        Trade_ne a (mkTrade q o (high a) (low a) (close a) w (volume a))
        = false).
Proof.
  split; [|split; [|split]].
  - intros Hc Hh Hl Hc' Hh' Hl'. unfold Trade_ne.
    rewrite !orb_true_iff, !int_ne_true.
    pose proof (double_ne_iff_differ _ _ Hc Hc').
    pose proof (double_ne_iff_differ _ _ Hh Hh').
    pose proof (double_ne_iff_differ _ _ Hl Hl').
    tauto.
  - intros Hnan. unfold Trade_ne. rewrite !orb_true_iff.
    destruct Hnan as [H|[H|[H|[H|[H|H]]]]];
      [left; left; right|left; right|right
      |left; left; right|left; right|right];
      apply double_ne_nan; tauto.
  - reflexivity.
  - intros Hc Hh Hl q o w. unfold Trade_ne. cbn.
    rewrite !double_ne_refl by done. unfold int_ne. by rewrite Z.eqb_refl.
Qed.

Lemma Trade_ne_iff_bar_differs_witness :
  Trade_ne (mkTrade 1 double_zero (S754_infinity false) (S754_zero true)
                    double_zero double_zero 10)
           (mkTrade 2 S754_nan (S754_infinity false) (S754_zero false)
                    double_zero S754_nan 10) = true
  <-> 10 <> 10
      \/ ~ same_value double_zero double_zero
      \/ ~ same_value (S754_infinity false) (S754_infinity false)
      \/ ~ same_value (S754_zero true) (S754_zero false).
Proof.
  apply (proj1
           (Trade_ne_iff_bar_differs
              (mkTrade 1 double_zero (S754_infinity false) (S754_zero true)
                       double_zero double_zero 10)
              (mkTrade 2 S754_nan (S754_infinity false) (S754_zero false)
                       double_zero S754_nan 10)));
    discriminate.
Defined.

End Comparison_relations.

(** ** More on the throttle: what runs of updates count *)

Section Throttle_runs.

Import Cxx Throttle.
Local Open Scope Z_scope.

Lemma i32_range (z : Z) : - 2 ^ 31 <= i32 z < 2 ^ 31.
Proof.
  unfold i32. pose proof (Z.mod_pos_bound (z + 2 ^ 31) (2 ^ 32)). lia.
Qed.

Lemma i32_small (z : Z) : - 2 ^ 31 <= z < 2 ^ 31 -> i32 z = z.
Proof. intros Hz. unfold i32. rewrite Z.mod_small; lia. Qed.

Lemma i32_add_l (a b : Z) : i32 (i32 a + b) = i32 (a + b).
Proof.
  unfold i32.
  replace (((a + 2 ^ 31) mod 2 ^ 32 - 2 ^ 31) + b + 2 ^ 31)
    with ((a + 2 ^ 31) mod 2 ^ 32 + b) by lia.
  rewrite Z.add_mod_idemp_l by lia. do 2 f_equal. lia.
Qed.

Lemma updates_app (a b : list Z) (this : Throttle.t) :
  exec (updates (a ++ b)) this = exec (updates b) (exec (updates a) this).
Proof.
  revert this. induction a as [|s a IH]; intros this; [done|].
  cbn [app updates]. by rewrite !exec_bind, IH.
Qed.

(** [k] updates at the stored second add [k] to the counter. *)
Lemma updates_at_stored (k : nat) (this : Throttle.t) :
  - 2 ^ 31 <= n this < 2 ^ 31 ->
  exec (updates (replicate k (tm this))) this
  = mkThrottle (i32 (n this + Z.of_nat k)) (tm this).
Proof.
  revert this. induction k as [|k IH]; intros [n0 tm0] Hn; cbn [n tm] in *.
  - cbn. by rewrite Z.add_0_r, i32_small.
  - cbn [replicate updates]. rewrite exec_bind, Update_spec. cbn [n tm].
    rewrite Z.eqb_refl. cbn beta.
    specialize (IH (mkThrottle (i32 (n0 + 1)) tm0) (i32_range _)).
    cbn [n tm] in IH. rewrite IH, i32_add_l. do 2 f_equal. lia.
Qed.

(** X15. Whatever the throttle holds and whatever updates follow, a read
    at a second other than the one the throttle held at the start yields
    0: no update makes another second readable. *)
Theorem updates_unreadable_elsewhere
        (seconds : list Z) (second : Z) (this : Throttle.t) :
  second <> tm this ->
  eval (_ ← updates seconds; read second) this = 0
  /\ tm (exec (updates seconds) this) = tm this.
Proof.
  intros Hne. rewrite eval_bind. split; [|apply updates_tm].
  apply read_other_second. by rewrite updates_tm.
Qed.

Lemma updates_unreadable_elsewhere_witness :
  eval (_ ← updates [7; 7; 8; 7]; read 7) (mkThrottle 3 5) = 0
  /\ tm (exec (updates [7; 7; 8; 7]) (mkThrottle 3 5)) = tm (mkThrottle 3 5).
Proof.
  apply (updates_unreadable_elsewhere [7; 7; 8; 7] 7 (mkThrottle 3 5)).
  discriminate.
Defined.

(** X16. Updates at the stored second are counted: [k] of them in a row
    raise the read at that second from [n] to [n + k], wrapped to an
    [int]. *)
Theorem updates_count_at_stored_second (k : nat) (this : Throttle.t) :
  - 2 ^ 31 <= n this < 2 ^ 31 ->
  eval (_ ← updates (replicate k (tm this)); read (tm this)) this
  = i32 (n this + Z.of_nat k).
Proof.
  intros Hn. rewrite eval_bind, updates_at_stored by done.
  unfold eval, read, mbind, M_bind, bind, get. cbn.
  by rewrite Z.eqb_refl.
Qed.

Lemma updates_count_at_stored_second_witness :
  eval (_ ← updates (replicate 4 (tm (mkThrottle 3 5)));
        read (tm (mkThrottle 3 5))) (mkThrottle 3 5)
  = i32 (n (mkThrottle 3 5) + Z.of_nat 4).
Proof.
  apply (updates_count_at_stored_second 4 (mkThrottle 3 5)). cbn. lia.
Defined.

(** X17. An update at any other second discards the count: after it, the
    read at the stored second is the number of updates at the stored
    second that followed, whatever came before. *)
Theorem updates_count_since_reset
        (before : list Z) (other : Z) (k : nat) (this : Throttle.t) :
  other <> tm this -> Z.of_nat k < 2 ^ 31 ->
  eval (_ ← updates (before ++ other :: replicate k (tm this));
        read (tm this)) this
  = Z.of_nat k.
Proof.
  intros Hne Hk. rewrite eval_bind, updates_app.
  pose proof (updates_tm before this) as Htm.
  destruct (exec (updates before) this) as [n1 tm1] eqn:E.
  cbn [tm] in Htm. subst tm1.
  cbn [updates]. rewrite exec_bind, Update_spec. cbn [n tm].
  apply Z.eqb_neq in Hne. rewrite Hne.
  cbn beta.
  pose proof (updates_at_stored k (mkThrottle 0 (tm this))) as Hrun.
  cbn [n tm] in Hrun. rewrite Hrun by lia.
  unfold eval, read, mbind, M_bind, bind, get. cbn.
  rewrite Z.eqb_refl. cbn. apply i32_small. lia.
Qed.

Lemma updates_count_since_reset_witness :
  eval (_ ← updates ([5; 5; 5] ++ 9 :: replicate 2 (tm (mkThrottle 3 5)));
        read (tm (mkThrottle 3 5))) (mkThrottle 3 5)
  = Z.of_nat 2.
Proof.
  apply (updates_count_since_reset [5; 5; 5] 9 2 (mkThrottle 3 5));
    [discriminate | cbn; lia].
Defined.

End Throttle_runs.

(** ** Encoding and decoding names of any length *)

Section DataSrc_any_length.

Import Cxx DataSrc.
Local Open Scope Z_scope.

(** X18. For an ASCII name of any length, decoding its identifier gives
    the name's first four characters (the name itself when it has at most
    four), and encoding that string again gives the same identifier. *)
Theorem str_of_string_any_length (name buf : list char) :
  Forall char_is_ascii name -> length buf = 5%nat ->
  str (of_string name) buf = take 4 name
  /\ of_string (str (of_string name) buf) = of_string name.
Proof.
  intros Hascii Hbuf.
  assert (of_string name = of_string (take 4 name)) as Htake.
  { destruct (decide (4 <= length name)%nat) as [Hlong|Hshort].
    - apply of_string_take_4; [by apply ascii_not_terminator|done].
    - by rewrite take_ge by lia. }
  assert (str (of_string name) buf = take 4 name) as Hstr.
  { rewrite Htake, of_string_pack
      by (by apply Forall_take || (rewrite length_take; lia)).
    apply str_pack; [by apply Forall_take| |done].
    rewrite length_take. lia. }
  split; [done|]. by rewrite Hstr.
Qed.

Lemma str_of_string_any_length_witness :
  str (of_string [78; 65; 83; 68; 65; 81]) [0; 0; 0; 0; 0]
  = take 4 [78; 65; 83; 68; 65; 81]
  /\ of_string (str (of_string [78; 65; 83; 68; 65; 81]) [0; 0; 0; 0; 0])
     = of_string [78; 65; 83; 68; 65; 81].
Proof.
  apply (str_of_string_any_length [78; 65; 83; 68; 65; 81] [0; 0; 0; 0; 0]);
    [repeat constructor; unfold char_is_ascii; lia | reflexivity].
Defined.

End DataSrc_any_length.
